(** * Diff conversion of [app/src/lib/git/diff.ts]

    A shallow embedding of the diff converter: the line-ending normalizer
    [formatLineEnding], the media-type mapper [getMediaType], the image
    resolver [getImageDiff] with its two readers, and the classifier
    [convertDiff].

    JavaScript strings are modelled as [string]; the built-in string methods
    the converter calls ([endsWith], [indexOf]) are given executable
    definitions together with their characterisations.  Asynchronous code is
    modelled by a small monad [Promise] that threads the log of the read
    requests issued so far and either fulfils with a value or rejects with an
    error, which is what [await] observes. *)

From Stdlib Require Import ZArith Ascii.
From stdpp Require Import base list strings gmap.

(** ** JavaScript strings *)

(** ['\n'] and ['\r']. *)
Definition LF : string := String "010"%char EmptyString.
Definition CR : string := String "013"%char EmptyString.

(** [text.endsWith(search)]: some suffix of [text] is [search]. *)
Fixpoint endsWith (text search : string) : bool :=
  if String.eqb text search then true
  else match text with
       | EmptyString => false
       | String _ rest => endsWith rest search
       end.

(** [text.indexOf(search)], scanning from position [i]: the first position
    at which [search] starts, and [-1] when there is none. *)
Fixpoint indexOf_from (text search : string) (i : Z) : Z :=
  if String.prefix search text then i
  else match text with
       | EmptyString => (-1)%Z
       | String _ rest => indexOf_from rest search (i + 1)%Z
       end.

Definition indexOf (text search : string) : Z := indexOf_from text search 0.

(** [a || b] where [a] is a string or [undefined]: both [undefined] and the
    empty string are falsy. *)
Definition or_else (a : option string) (b : string) : string :=
  match a with
  | Some (String c s) => String c s
  | Some EmptyString | None => b
  end.

(** Concatenation of a list of strings, left to right. *)
Definition concat_strings (l : list string) : string := foldr String.app EmptyString l.

(** [s] contains [sub] as a substring. *)
Definition contains (s sub : string) : Prop :=
  ∃ before after, s = before +:+ sub +:+ after.

(** [s] ends in [suffix]. *)
Definition ends_in (s suffix : string) : Prop := ∃ before, s = before +:+ suffix.

(** ** [Buffer.toString('base64')] *)

Definition Buffer : Type := list Byte.byte.

Definition base64_alphabet : string :=
  "ABCDEFGHIJKLMNOPQRSTUVWXYZabcdefghijklmnopqrstuvwxyz0123456789+/".

Definition base64_digit (n : N) : ascii :=
  match String.get (N.to_nat (N.land n 63)) base64_alphabet with
  | Some c => c
  | None => "="%char
  end.

Fixpoint toString_base64 (b : Buffer) : string :=
  match b with
  | [] => EmptyString
  | [x] =>
      let n := N.shiftl (Byte.to_N x) 16 in
      String (base64_digit (N.shiftr n 18)) (String (base64_digit (N.shiftr n 12)) "==")
  | [x; y] =>
      let n := N.lor (N.shiftl (Byte.to_N x) 16) (N.shiftl (Byte.to_N y) 8) in
      String (base64_digit (N.shiftr n 18)) (String (base64_digit (N.shiftr n 12))
        (String (base64_digit (N.shiftr n 6)) "="))
  | x :: y :: z :: rest =>
      let n := N.lor (N.lor (N.shiftl (Byte.to_N x) 16) (N.shiftl (Byte.to_N y) 8))
                     (Byte.to_N z) in
      String (base64_digit (N.shiftr n 18)) (String (base64_digit (N.shiftr n 12))
        (String (base64_digit (N.shiftr n 6)) (String (base64_digit n)
          (toString_base64 rest))))
  end.

(** ** Line endings *)

(** normalize the line endings in the diff so that the editor displays the
    unified diff correctly *)
Definition formatLineEnding (text : string) : string :=
  if endsWith text LF then text
  else if endsWith text CR then text +:+ LF
  else text +:+ CR +:+ LF.

(** ** Media types *)

(** Map a given file extension to the related data URL media type *)
Definition getMediaType (extension : string) : string :=
  if String.eqb extension ".png" then "image/png"
  else if String.eqb extension ".jpg" || String.eqb extension ".jpeg" then "image/jpg"
  else if String.eqb extension ".gif" then "image/gif"
  else "text/plain".

(** Defining the list of known extensions we can render inside the app *)
Definition imageFileExtensions : gset string :=
  {[ ".png"; ".jpg"; ".jpeg"; ".gif" ]}.

(** The four extensions that are rendered as images. *)
Definition image_extension (extension : string) : Prop :=
  extension = ".png" ∨ extension = ".jpg" ∨ extension = ".jpeg" ∨ extension = ".gif".

(** ** Data model *)

Record Repository : Type := { repository_path : string }.

(** Modelled from the spec: the status enumeration of [models/status], whose
    declaration is not part of the excerpt (New, Modified, Deleted, Renamed,
    Conflicted). *)
Inductive FileStatus : Type := New | Modified | Deleted | Renamed | Conflicted.

#[global] Instance FileStatus_eq_dec : EqDecision FileStatus.
Proof. solve_decision. Defined.

(** A [FileChange]; [inWorkingDirectory] records the outcome of
    [file instanceof WorkingDirectoryFileChange], and [oldPath] is the
    optional property [oldPath?: string]. *)
Record FileChange : Type := {
  path : string;
  status : FileStatus;
  oldPath : option string;
  inWorkingDirectory : bool
}.

(** Modelled from the spec: the line types of [models/diff]. *)
Inductive DiffLineType : Type := Context | Add | Delete.

Record DiffLine : Type := { text : string; type : DiffLineType }.

Record DiffHunk : Type := { lines : list DiffLine }.

Record RawDiff : Type := {
  isBinary : bool;
  hunks : list DiffHunk;
  diffLineForIndex : Z → option DiffLine;
  diffHunkForIndex : Z → option DiffHunk
}.

Record Image : Type := { contents : string; mediaType : string }.

Record IImageDiff : Type := { previous : option Image; current : option Image }.

(** The tagged union [IDiff]; the constructor plays the role of the [kind]
    property. *)
Inductive IDiff : Type :=
| TextDiff (text : string) (hunks : list DiffHunk)
    (diffLineForIndex : Z → option DiffLine) (diffHunkForIndex : Z → option DiffHunk)
| BinaryDiff
| ImageDiff (image : IImageDiff)
| SubmoduleDiff.

(** ** Promises over a log of read requests *)

Inductive Error : Type :=
| TypeError (message : string)
| ReadFailure (message : string).

Inductive Request : Type :=
| ReadFile (path : string)
| GetBlobContents (repository : Repository) (commitish path : string).

(** A computation receives the requests issued so far and returns its outcome,
    a rejection ([inl]) or a fulfilment ([inr]), with the extended log. *)
Definition Promise (A : Type) : Type := list Request → (Error + A) * list Request.

Definition resolve {A} (a : A) : Promise A := λ log, (inr a, log).
Definition reject {A} (e : Error) : Promise A := λ log, (inl e, log).

(** [await m] followed by [k]: a rejection of [m] skips [k]. *)
Definition await {A B} (m : Promise A) (k : A → Promise B) : Promise B :=
  λ log, match m log with
         | (inr a, log') => k a log'
         | (inl e, log') => (inl e, log')
         end.

#[global] Instance Promise_ret : MRet Promise := @resolve.
#[global] Instance Promise_bind : MBind Promise := λ A B k m, await m k.
#[global] Instance Promise_fmap : FMap Promise := λ A B f m, await m (λ a, resolve (f a)).

(** Reading a property of [o], a value that may be [undefined]. *)
Definition property_of {A} (name : string) (o : option A) : Promise A :=
  match o with
  | Some a => resolve a
  | None => reject (TypeError ("Cannot read property '" +:+ name +:+ "' of undefined"))
  end.

(** The collaborators the converter calls but does not define: [Path.extname],
    [Path.join], and the outcomes of [Fs.readFile] and of [getBlobContents]
    (of [./show]), each of which may depend on the requests made before. *)
Record Collaborators : Type := {
  extname : string → string;
  join : string → string → string;
  file_outcome : list Request → string → Error + Buffer;
  blob_outcome : list Request → Repository → string → string → Error + Buffer
}.

(** ** The converter *)

Section Converter.

Variable env : Collaborators.

(** What the collaborators answer to [req] after the requests of [log]. *)
Definition outcome (log : list Request) (req : Request) : Error + Buffer :=
  match req with
  | ReadFile path => file_outcome env log path
  | GetBlobContents repository commitish path =>
      blob_outcome env log repository commitish path
  end.

(** Issuing a request logs it and fulfils or rejects with its outcome. *)
Definition request (req : Request) : Promise Buffer :=
  λ log, (outcome log req, log ++ [req]).

(** [getBlobContents] of [./show] and [Fs.readFile]. *)
Definition getBlobContents (repository : Repository) (commitish path : string)
  : Promise Buffer :=
  request (GetBlobContents repository commitish path).

Definition readFile (path : string) : Promise Buffer := request (ReadFile path).

(** Retrieve the binary contents of a blob from the working directory, as a
    base64 encoded string. *)
Definition getWorkingDirectoryContents (repository : Repository) (file : FileChange)
  : Promise string :=
  let path := join env (repository_path repository) (path file) in
  buffer ← readFile path;
  resolve (toString_base64 buffer).

Definition getBlobImage (repository : Repository) (path commitish : string)
  : Promise Image :=
  let extension := extname env path in
  contents ← getBlobContents repository commitish path;
  resolve {| contents := toString_base64 contents;
             mediaType := getMediaType extension |}.

Definition getWorkingDirectoryImage (repository : Repository) (file : FileChange)
  : Promise Image :=
  let extension := extname env (path file) in
  contents ← getWorkingDirectoryContents repository file;
  resolve {| contents := contents; mediaType := getMediaType extension |}.

Definition getImageDiff (repository : Repository) (file : FileChange) (commitish : string)
  : Promise IImageDiff :=
  if inWorkingDirectory file then
    if bool_decide (status file = Conflicted) then
      resolve {| previous := None; current := None |}
    else
      current ← (if bool_decide (status file ≠ Deleted)
                 then Some <$> getWorkingDirectoryImage repository file
                 else resolve None);
      previous ← (if bool_decide (status file ≠ New)
                  then Some <$> getBlobImage repository
                                  (or_else (oldPath file) (path file)) "HEAD"
                  else resolve None);
      resolve {| previous := previous; current := current |}
  else
    current ← (if bool_decide (status file ≠ Deleted)
               then Some <$> getBlobImage repository (path file) commitish
               else resolve None);
    previous ← (if bool_decide (status file ≠ New)
                then Some <$> getBlobImage repository
                                (or_else (oldPath file) (path file)) (commitish +:+ "^")
                else resolve None);
    resolve {| previous := previous; current := current |}.

(** The two nested [forEach] loops that accumulate [diffText]. *)
Definition diffText (hunks : list DiffHunk) : string :=
  fold_left
    (λ acc hunk, fold_left (λ acc l, acc +:+ formatLineEnding (text l)) (lines hunk) acc)
    hunks EmptyString.

(** The test guarding the submodule marker:
    [diff.hunks[0].lines[0].text.indexOf('Subproject') > -1], evaluated only
    when [diff.hunks.length > 0]. *)
Definition firstLineLooksLikeSubmodule (diff : RawDiff) : Promise bool :=
  if (0 <? Z.of_nat (length (hunks diff)))%Z then
    hunk ← property_of "lines" (hunks diff !! 0%nat);
    line ← property_of "text" (lines hunk !! 0%nat);
    resolve (indexOf (text line) "Subproject" >? -1)%Z
  else resolve false.

Definition convertDiff (repository : Repository) (file : FileChange) (diff : RawDiff)
  (commitish : string) : Promise IDiff :=
  if isBinary diff then
    let extension := extname env (path file) in
    (* some extension we don't know how to parse, never mind *)
    if negb (bool_decide (extension ∈ imageFileExtensions)) then resolve BinaryDiff
    else ImageDiff <$> getImageDiff repository file commitish
  else
    (* if first line looks like the submodule format string *)
    submodule ← firstLineLooksLikeSubmodule diff;
    if submodule : bool then resolve SubmoduleDiff
    else resolve (TextDiff (diffText (hunks diff)) (hunks diff)
                    (diffLineForIndex diff) (diffHunkForIndex diff)).

End Converter.

Arguments outcome : simpl never.

(** ** Vocabulary for the resolver *)

(** The image made of the bytes read at [path]. *)
Definition image_of (env : Collaborators) (path : string) (bytes : Buffer) : Image :=
  {| contents := toString_base64 bytes; mediaType := getMediaType (extname env path) |}.


(** One of the requests [reqs], issued in this order after those of [log], was
    answered with the error [e]. *)
Definition failed (env : Collaborators) (log reqs : list Request) (e : Error) : Prop :=
  ∃ i req, reqs !! i = Some req ∧ outcome env (log ++ take i reqs) req = inl e.

(** [m] only appends to the log, and rejects with [e] exactly when one of the
    requests it issued was answered with [e]. *)
Definition propagates (env : Collaborators) {A} (m : Promise A) : Prop :=
  ∀ log, ∃ reqs,
    (m log).2 = log ++ reqs ∧ ∀ e, (m log).1 = inl e ↔ failed env log reqs e.

(** ** Running git and reading its output *)

(** ['\0']. *)
Definition NUL : string := String "000"%char EmptyString.

(** [text.split(separator)] for a separator of one character. *)
Fixpoint split_string (separator : ascii) (text : string) : list string :=
  match text with
  | EmptyString => [EmptyString]
  | String c rest =>
      if Ascii.eqb c separator then EmptyString :: split_string separator rest
      else match split_string separator rest with
           | piece :: pieces => String c piece :: pieces
           | [] => [String c EmptyString]
           end
  end.

(** [array[i]] for a number [i]: [undefined] out of range. *)
Definition element {A} (array : list A) (i : Z) : option A :=
  if (i <? 0)%Z then None else array !! Z.to_nat i.

(** The result of a git run; only [stdout] is read here. *)
Record IGitResult : Type := { stdout : string }.

Record IGitExecutionOptions : Type := { successExitCodes : gset Z }.

(** The collaborators of the two entry points: [git] of [./core], answering
    to the arguments, the working directory, the name of the operation and the
    options, and the [parse] method of [DiffParser]. *)
Record GitTools : Type := {
  git_outcome : list Request → list string → string → string →
                option IGitExecutionOptions → Error + IGitResult;
  parse : string → RawDiff
}.

(** A step that fulfils with a value unless the value is [undefined]. *)
Definition defined {A} (o : option A) : Promise A :=
  match o with
  | Some a => resolve a
  | None => reject (TypeError "undefined is not a string")
  end.

Section EntryPoints.

Variable env : Collaborators.
Variable tools : GitTools.

(** Running git is not a read request: the log is left as it is. *)
Definition git (args : list string) (path name : string)
  (options : option IGitExecutionOptions) : Promise IGitResult :=
  λ log, (git_outcome tools log args path name options, log).

(** Parses the output from a diff-like command that uses [--patch-with-raw]:
    [None] stands for the parser being handed [undefined]. *)
Definition diffFromRawDiffOutput (result : string) : option RawDiff :=
  let pieces := split_string "000" result in
  parse tools <$> element pieces (Z.of_nat (length pieces) - 1).

(** The arguments of [getCommitDiff]. *)
Definition getCommitDiff_args (file : FileChange) (commitish : string) : list string :=
  ["log"; commitish; "-m"; "-1"; "--first-parent"; "--patch-with-raw"; "-z"; "--";
   path file].

(** Render the difference between a file in the given commit and its parent *)
Definition getCommitDiff (repository : Repository) (file : FileChange)
  (commitish : string) : Promise IDiff :=
  let args := getCommitDiff_args file commitish in
  value ← git args (repository_path repository) "getCommitDiff" None;
  diff ← defined (diffFromRawDiffOutput (stdout value));
  convertDiff env repository file diff commitish.

(** The options and the arguments that [getWorkingDirectoryDiff] assigns to
    [opts] and [args]. *)
Definition getWorkingDirectoryDiff_opts (file : FileChange)
  : option IGitExecutionOptions :=
  if bool_decide (status file = New)
  then Some {| successExitCodes := {[ 0%Z; 1%Z ]} |}
  else None.

Definition getWorkingDirectoryDiff_args (file : FileChange) : list string :=
  if bool_decide (status file = New) then
    ["diff"; "--no-index"; "--patch-with-raw"; "-z"; "--"; "/dev/null"; path file]
  else if bool_decide (status file = Renamed) then
    ["diff"; "--patch-with-raw"; "-z"; "--"; path file]
  else
    ["diff"; "HEAD"; "--patch-with-raw"; "-z"; "--"; path file].

(** Render the diff for a file within the repository working directory. *)
Definition getWorkingDirectoryDiff (repository : Repository) (file : FileChange)
  : Promise IDiff :=
  let opts := getWorkingDirectoryDiff_opts file in
  let args := getWorkingDirectoryDiff_args file in
  value ← git args (repository_path repository) "getWorkingDirectoryDiff" opts;
  diff ← defined (diffFromRawDiffOutput (stdout value));
  convertDiff env repository file diff "HEAD".

End EntryPoints.

(** ** A sample environment

    A small POSIX-like instance of the collaborators, used to run the
    converter on concrete inputs. *)

(** The reversed last component of a reversed path. *)
Fixpoint basename_rev (r : list ascii) : list ascii :=
  match r with
  | [] => []
  | c :: r' => if Ascii.eqb c "/" then [] else c :: basename_rev r'
  end.

(** Splits a reversed component at its last dot: the reversed extension, dot
    included, and what precedes the dot. *)
Fixpoint split_ext_rev (r : list ascii) : option (list ascii * list ascii) :=
  match r with
  | [] => None
  | c :: r' =>
      if Ascii.eqb c "." then Some ([c], r')
      else match split_ext_rev r' with
           | Some (e, front) => Some (c :: e, front)
           | None => None
           end
  end.

(** The extension of the last component: from its last dot on, and empty when
    there is no dot, when the only dot leads the component, or for [..]. *)
Definition posix_extname (p : string) : string :=
  let base := basename_rev (reverse (String.list_ascii_of_string p)) in
  match split_ext_rev base with
  | Some (e, _ :: _ as front) =>
      if bool_decide (base = ["."; "."]%char) then EmptyString
      else String.string_of_list_ascii (reverse e)
  | _ => EmptyString
  end.

Definition posix_join (a b : string) : string := a +:+ "/" +:+ b.

(** A fixed store: working-tree files by absolute path, blobs by revision and
    path; anything else is reported missing. *)
Definition disk (files : gmap string Buffer) (blobs : gmap (string * string) Buffer)
  : Collaborators :=
  {| extname := posix_extname;
     join := posix_join;
     file_outcome := λ _ p,
       match files !! p with
       | Some b => inr b
       | None => inl (ReadFailure ("ENOENT: no such file or directory, open '" +:+ p +:+ "'"))
       end;
     blob_outcome := λ _ _ commitish p,
       match blobs !! (commitish, p) with
       | Some b => inr b
       | None => inl (ReadFailure ("fatal: Path '" +:+ p +:+ "' does not exist in '"
                                   +:+ commitish +:+ "'"))
       end |}.

Definition repo : Repository := {| repository_path := "/repo" |}.

Definition no_lookup {A} : Z → option A := λ _, None.

(** Sample diffs. *)

Definition line (t : string) : DiffLine := {| text := t; type := Context |}.

Definition text_diff (hs : list (list string)) : RawDiff :=
  {| isBinary := false;
     hunks := (λ ls, {| lines := line <$> ls |}) <$> hs;
     diffLineForIndex := no_lookup;
     diffHunkForIndex := no_lookup |}.

Definition binary_diff : RawDiff :=
  {| isBinary := true; hunks := [];
     diffLineForIndex := no_lookup; diffHunkForIndex := no_lookup |}.

Definition mixed_endings : RawDiff := text_diff [["a" +:+ CR; "b"; "c" +:+ LF]].

Definition committed (p : string) (s : FileStatus) : FileChange :=
  {| path := p; status := s; oldPath := None; inWorkingDirectory := false |}.

Definition in_tree (p : string) (s : FileStatus) : FileChange :=
  {| path := p; status := s; oldPath := None; inWorkingDirectory := true |}.

(** Sample stores and changes. *)

Definition pixels : Buffer := String.list_byte_of_string "PNG".

Definition empty_disk : Collaborators := disk ∅ ∅.

Definition tree_only : Collaborators := disk {[ "/repo/a.png" := pixels ]} ∅.

Definition after_rename : Collaborators :=
  disk {[ "/repo/new.png" := pixels ]} {[ ("HEAD", "old.png") := pixels ]}.

Definition history : Collaborators :=
  disk ∅ {[ ("abc123", "logo.gif") := pixels; ("abc123^", "logo.gif") := pixels ]}.

Definition renamed_file : FileChange :=
  {| path := "new.png"; status := Renamed; oldPath := Some "old.png";
     inWorkingDirectory := true |}.

(** A text file renamed to an image, and a store that has both. *)

Definition retyped_file : FileChange :=
  {| path := "new.png"; status := Renamed; oldPath := Some "notes.txt";
     inWorkingDirectory := true |}.

Definition after_retyping : Collaborators :=
  disk {[ "/repo/new.png" := pixels ]} {[ ("HEAD", "notes.txt") := pixels ]}.

(** Sample git runs: a parser that only tells binary from text, a git that
    prints a fixed output and one that fails. *)

Definition sample_parse (text : string) : RawDiff :=
  if (indexOf text "Binary files" >? -1)%Z then binary_diff else text_diff [[text]].

Definition git_printing (output : string) : GitTools :=
  {| git_outcome := λ _ _ _ _ _, inr {| stdout := output |}; parse := sample_parse |}.

Definition git_failing : GitTools :=
  {| git_outcome := λ _ _ _ _ _, inl (ReadFailure "fatal: not a git repository");
     parse := sample_parse |}.

(** The output of a git run on a binary file: the raw line, the path, and the
    patch, separated by NUL. *)
Definition binary_output : string :=
  ":100644 100644 1a2b3c 4d5e6f M" +:+ NUL +:+ "logo.gif" +:+ NUL
  +:+ "Binary files a/logo.gif and b/logo.gif differ".

(** * Properties *)

(** ** Strings *)

Lemma string_app_cons c s t : String c s +:+ t = String c (s +:+ t).
Proof. reflexivity. Qed.

Lemma string_app_nil_r s : s +:+ EmptyString = s.
Proof. induction s as [|c s IH]; [done|]. by rewrite string_app_cons, IH. Qed.

Lemma string_app_assoc s t u : (s +:+ t) +:+ u = s +:+ t +:+ u.
Proof. induction s as [|c s IH]; [done|]. by rewrite !string_app_cons, IH. Qed.

Lemma endsWith_cons c text search :
  endsWith (String c text) search
  = if String.eqb (String c text) search then true else endsWith text search.
Proof. reflexivity. Qed.

Lemma endsWith_ends_in text search : endsWith text search = true ↔ ends_in text search.
Proof.
  induction text as [|c text IH].
  - destruct search as [|c search]; simpl.
    + split; [intros _|done]. by exists EmptyString.
    + split; [done|]. by intros [[|??] ?].
  - rewrite endsWith_cons.
    destruct (String.eqb_spec (String c text) search) as [<-|Hne].
    + split; [|done]. by exists EmptyString.
    + rewrite IH. split.
      * intros [before ->]. by exists (String c before).
      * intros [[|c' before] Heq]; [by destruct Hne|].
        rewrite string_app_cons in Heq. injection Heq as -> ->. by exists before.
Qed.

Lemma endsWith_not_ends_in text search :
  endsWith text search = false ↔ ¬ ends_in text search.
Proof. rewrite <-endsWith_ends_in. by destruct (endsWith text search). Qed.

Lemma prefix_starts search text :
  String.prefix search text = true ↔ ∃ after, text = search +:+ after.
Proof.
  revert text. induction search as [|c search IH]; intros text.
  - destruct text; (split; [intros _|done]); by eexists.
  - destruct text as [|c' text]; simpl.
    + split; [done|]. by intros [? ?].
    + destruct (ascii_dec c c') as [->|Hne].
      * rewrite IH. split; intros [after Heq]; exists after.
        -- by rewrite string_app_cons, <-Heq.
        -- rewrite string_app_cons in Heq. by injection Heq.
      * split; [done|]. intros [after Heq].
        rewrite string_app_cons in Heq. injection Heq as ??. by destruct Hne.
Qed.

Lemma indexOf_from_nil search i :
  indexOf_from EmptyString search i
  = if String.prefix search EmptyString then i else (-1)%Z.
Proof. reflexivity. Qed.

Lemma indexOf_from_cons c text search i :
  indexOf_from (String c text) search i
  = if String.prefix search (String c text) then i
    else indexOf_from text search (i + 1)%Z.
Proof. reflexivity. Qed.

Lemma indexOf_from_found text search i :
  (0 ≤ i)%Z → (-1 < indexOf_from text search i)%Z ↔ contains text search.
Proof.
  revert i. induction text as [|c text IH]; intros i Hi.
  - rewrite indexOf_from_nil.
    destruct (String.prefix search EmptyString) eqn:Hp.
    + split; [intros _|lia]. apply prefix_starts in Hp as [after Hp].
      exists EmptyString, after. done.
    + split; [lia|]. intros ([|??] & after & Heq); [|done].
      assert (String.prefix search EmptyString = true) as Hp'; [|congruence].
      apply prefix_starts. by exists after.
  - rewrite indexOf_from_cons.
    destruct (String.prefix search (String c text)) eqn:Hp.
    + split; [intros _|lia]. apply prefix_starts in Hp as [after Hp].
      by exists EmptyString, after.
    + rewrite IH by lia. split.
      * intros (before & after & ->). by exists (String c before), after.
      * intros ([|c' before] & after & Heq).
        -- assert (String.prefix search (String c text) = true) as Hp'; [|congruence].
           apply prefix_starts. by exists after.
        -- rewrite string_app_cons in Heq. injection Heq as -> ->. by exists before, after.
Qed.

Lemma indexOf_found text search :
  (indexOf text search >? -1)%Z = true ↔ contains text search.
Proof.
  unfold indexOf. rewrite <-(indexOf_from_found text search 0) by done.
  rewrite Z.gtb_ltb. apply Z.ltb_lt.
Qed.

Lemma concat_strings_app l k :
  concat_strings (l ++ k) = concat_strings l +:+ concat_strings k.
Proof.
  induction l as [|s l IH]; simpl; [done|].
  by rewrite IH, string_app_assoc.
Qed.

Lemma string_app_last_inj s t c d :
  s +:+ String c EmptyString = t +:+ String d EmptyString → s = t ∧ c = d.
Proof.
  revert t. induction s as [|a s IH]; intros [|b t] Heq.
  - by injection Heq.
  - rewrite string_app_cons in Heq. injection Heq as _ Heq. by destruct t.
  - rewrite string_app_cons in Heq. injection Heq as _ Heq. by destruct s.
  - rewrite !string_app_cons in Heq. injection Heq as -> Heq.
    apply IH in Heq as [-> ->]. done.
Qed.

Lemma ends_in_CR_not_LF text : ends_in text CR → ¬ ends_in text LF.
Proof.
  intros [s ->] [t Heq]. by apply string_app_last_inj in Heq as [_ ?].
Qed.

(** ** The text normalizer *)

Lemma formatLineEnding_LF text : ends_in text LF → formatLineEnding text = text.
Proof.
  intros H%endsWith_ends_in. unfold formatLineEnding. by rewrite H.
Qed.

Lemma formatLineEnding_CR text : ends_in text CR → formatLineEnding text = text +:+ LF.
Proof.
  intros H. pose proof (ends_in_CR_not_LF _ H) as H'%endsWith_not_ends_in.
  apply endsWith_ends_in in H. unfold formatLineEnding. by rewrite H', H.
Qed.

Lemma formatLineEnding_bare text :
  ¬ ends_in text LF → ¬ ends_in text CR → formatLineEnding text = text +:+ CR +:+ LF.
Proof.
  intros H1%endsWith_not_ends_in H2%endsWith_not_ends_in.
  unfold formatLineEnding. by rewrite H1, H2.
Qed.

Lemma fold_left_lines (f : string → string) (ls : list DiffLine) (acc : string) :
  fold_left (λ acc l, acc +:+ f (text l)) ls acc
  = acc +:+ concat_strings (f ∘ text <$> ls).
Proof.
  revert acc. induction ls as [|l ls IH]; intros acc; simpl.
  - by rewrite string_app_nil_r.
  - by rewrite IH, string_app_assoc.
Qed.

Lemma fold_left_hunks (f : string → string) (hs : list DiffHunk) (acc : string) :
  fold_left (λ acc hunk, fold_left (λ acc l, acc +:+ f (text l)) (lines hunk) acc) hs acc
  = acc +:+ concat_strings (f ∘ text <$> (hs ≫= lines)).
Proof.
  revert acc. induction hs as [|h hs IH]; intros acc; simpl.
  - by rewrite string_app_nil_r.
  - rewrite IH, fold_left_lines, fmap_app, concat_strings_app.
    by rewrite string_app_assoc.
Qed.

Lemma diffText_concat (hs : list DiffHunk) :
  diffText hs = concat_strings (formatLineEnding ∘ text <$> (hs ≫= lines)).
Proof. unfold diffText. by rewrite fold_left_hunks. Qed.

(** C5: the normalized text is the concatenation, in hunk order then line
    order, of every line's text followed by its own terminator: nothing after
    a line that ends in a line feed, a line feed after a line that ends in a
    carriage return, and a carriage return and a line feed after any other
    line.  The lines [a\r], [b], [c\n] normalize to [a\r\n b\r\n c\n], also as
    the text of the converted diff. *)
Theorem normalizer_terminates_each_line :
  (∀ hs : list DiffHunk,
     diffText hs = concat_strings (formatLineEnding ∘ text <$> (hs ≫= lines)))
  ∧ (∀ t, ends_in t LF → formatLineEnding t = t)
  ∧ (∀ t, ends_in t CR → formatLineEnding t = t +:+ LF)
  ∧ (∀ t, ¬ ends_in t LF → ¬ ends_in t CR → formatLineEnding t = t +:+ CR +:+ LF)
  ∧ (∀ env repository file commitish log,
       convertDiff env repository file mixed_endings commitish log
       = (inr (TextDiff (("a" +:+ CR +:+ LF) +:+ ("b" +:+ CR +:+ LF) +:+ ("c" +:+ LF))
                 (hunks mixed_endings) no_lookup no_lookup), log)).
Proof.
  split; [exact diffText_concat|].
  split; [exact formatLineEnding_LF|].
  split; [exact formatLineEnding_CR|].
  split; [exact formatLineEnding_bare|].
  reflexivity.
Qed.

Lemma normalizer_terminates_each_line_witness :
  formatLineEnding ("c" +:+ LF) = "c" +:+ LF
  ∧ formatLineEnding ("a" +:+ CR) = ("a" +:+ CR) +:+ LF
  ∧ formatLineEnding "b" = "b" +:+ CR +:+ LF.
Proof.
  destruct normalizer_terminates_each_line as (_ & Hlf & Hcr & Hbare & _).
  split; [apply Hlf; by exists "c"|].
  split; [apply Hcr; by exists "a"|].
  apply Hbare; by apply endsWith_not_ends_in.
Defined.

(** C6: when every line of a diff already ends in a line feed, the normalized
    text is the plain concatenation of the line texts. *)
Theorem normalizer_keeps_terminated_lines (diff : RawDiff) :
  (∀ l, l ∈ hunks diff ≫= lines → ends_in (text l) LF) →
  diffText (hunks diff) = concat_strings (text <$> (hunks diff ≫= lines)).
Proof.
  intros Hall. rewrite diffText_concat. f_equal.
  apply list_fmap_ext. intros i l Hl. simpl.
  apply formatLineEnding_LF, Hall. by eapply list_elem_of_lookup_2.
Qed.

Lemma normalizer_keeps_terminated_lines_witness :
  diffText (hunks (text_diff [["a" +:+ LF; "b" +:+ CR +:+ LF]; [LF]]))
  = ("a" +:+ LF) +:+ ("b" +:+ CR +:+ LF) +:+ LF.
Proof.
  rewrite normalizer_keeps_terminated_lines; [reflexivity|].
  intros l Hl. apply endsWith_ends_in.
  apply list_elem_of_In in Hl. vm_compute in Hl.
  destruct Hl as [<-|[<-|[<-|[]]]]; reflexivity.
Defined.

(** ** The media-type mapper *)

(** C9: [getMediaType], a total function, sends [.png] to the png type, [.jpg]
    and [.jpeg] to one and the same jpeg type, [.gif] to the gif type, and
    every other extension to the plain-text fallback; the comparison is case
    sensitive, so [.PNG], like the unknown [.bmp], gets the fallback. *)
Theorem getMediaType_mapping :
  getMediaType ".png" = "image/png"
  ∧ getMediaType ".jpg" = "image/jpg"
  ∧ getMediaType ".jpeg" = getMediaType ".jpg"
  ∧ getMediaType ".gif" = "image/gif"
  ∧ getMediaType ".PNG" = "text/plain"
  ∧ getMediaType ".bmp" = "text/plain"
  ∧ (∀ extension,
       extension ≠ ".png" → extension ≠ ".jpg" → extension ≠ ".jpeg" →
       extension ≠ ".gif" → getMediaType extension = "text/plain").
Proof.
  repeat (split; [reflexivity|]).
  intros extension H1%String.eqb_neq H2%String.eqb_neq H3%String.eqb_neq H4%String.eqb_neq.
  unfold getMediaType. by rewrite H1, H2, H3, H4.
Qed.

Lemma getMediaType_mapping_witness : getMediaType ".JPEG" = "text/plain".
Proof.
  destruct getMediaType_mapping as (_ & _ & _ & _ & _ & _ & Hother).
  apply Hother; discriminate.
Defined.

(** ** The classifier *)

Lemma imageFileExtensions_has extension :
  extension ∈ imageFileExtensions ↔ image_extension extension.
Proof.
  unfold imageFileExtensions, image_extension.
  rewrite !elem_of_union, !elem_of_singleton. tauto.
Qed.

Section Classifier.

Context (env : Collaborators) (repository : Repository) (file : FileChange).
Context (commitish : string) (log : list Request).

Lemma convertDiff_binary (diff : RawDiff) :
  isBinary diff = true →
  convertDiff env repository file diff commitish log
  = if bool_decide (extname env (path file) ∈ imageFileExtensions)
    then (ImageDiff <$> getImageDiff env repository file commitish) log
    else (inr BinaryDiff, log).
Proof.
  intros Hbin. unfold convertDiff. rewrite Hbin.
  by destruct (bool_decide (extname env (path file) ∈ imageFileExtensions)).
Qed.

Lemma firstLineLooksLikeSubmodule_no_hunks (diff : RawDiff) :
  hunks diff = [] → firstLineLooksLikeSubmodule diff log = (inr false, log).
Proof. intros Hh. unfold firstLineLooksLikeSubmodule. by rewrite Hh. Qed.

Lemma firstLineLooksLikeSubmodule_no_lines (diff : RawDiff) hunk rest :
  hunks diff = hunk :: rest → lines hunk = [] →
  firstLineLooksLikeSubmodule diff log
  = (inl (TypeError "Cannot read property 'text' of undefined"), log).
Proof.
  intros Hh Hl. unfold firstLineLooksLikeSubmodule. rewrite Hh. simpl.
  unfold mbind, Promise_bind, await. simpl. by rewrite Hl.
Qed.

Lemma firstLineLooksLikeSubmodule_line (diff : RawDiff) hunk rest l ls :
  hunks diff = hunk :: rest → lines hunk = l :: ls →
  firstLineLooksLikeSubmodule diff log
  = (inr (indexOf (text l) "Subproject" >? -1)%Z, log).
Proof.
  intros Hh Hl. unfold firstLineLooksLikeSubmodule. rewrite Hh. simpl.
  unfold mbind, Promise_bind, await. simpl. by rewrite Hl.
Qed.

Lemma convertDiff_not_binary (diff : RawDiff) :
  isBinary diff = false →
  convertDiff env repository file diff commitish log
  = match firstLineLooksLikeSubmodule diff log with
    | (inr true, log') => (inr SubmoduleDiff, log')
    | (inr false, log') =>
        (inr (TextDiff (diffText (hunks diff)) (hunks diff)
                (diffLineForIndex diff) (diffHunkForIndex diff)), log')
    | (inl e, log') => (inl e, log')
    end.
Proof.
  intros Hbin. unfold convertDiff. rewrite Hbin.
  unfold mbind, Promise_bind, await.
  by destruct (firstLineLooksLikeSubmodule diff log) as [[e|[]] log'].
Qed.

End Classifier.

(** ** Promises that propagate read failures *)

Section Propagation.

Context (env : Collaborators).

Lemma failed_nil log e : ¬ failed env log [] e.
Proof. by intros (i & req & ? & _). Qed.

Lemma failed_app_l log reqs more e :
  failed env log reqs e → failed env log (reqs ++ more) e.
Proof.
  intros (i & req & Hi & He). exists i, req. split.
  - by apply lookup_app_l_Some.
  - rewrite take_app_le; [done|]. apply lookup_lt_Some in Hi. lia.
Qed.

Lemma failed_app_r log reqs more e :
  failed env (log ++ reqs) more e → failed env log (reqs ++ more) e.
Proof.
  intros (i & req & Hi & He). exists (length reqs + i), req. split.
  - rewrite lookup_app_r by lia. by replace (length reqs + i - length reqs) with i by lia.
  - by rewrite take_app_add, (assoc_L (++)).
Qed.

Lemma failed_app_inv log reqs more e :
  failed env log (reqs ++ more) e →
  failed env log reqs e ∨ failed env (log ++ reqs) more e.
Proof.
  intros (i & req & Hi & He). apply lookup_app_Some in Hi as [Hi|[Hle Hi]].
  - left. exists i, req. split; [done|].
    rewrite take_app_le in He; [done|]. apply lookup_lt_Some in Hi. lia.
  - right. exists (i - length reqs), req. split; [done|].
    by rewrite take_app_ge, (assoc_L (++)) in He.
Qed.

Lemma propagates_resolve {A} (a : A) : propagates env (resolve a).
Proof.
  intros log. exists []. split; [by rewrite (right_id_L [] (++))|].
  intros e. split; [done|]. by intros ?%failed_nil.
Qed.

Lemma propagates_request req : propagates env (request env req).
Proof.
  intros log. exists [req]. split; [done|]. intros e. simpl. split.
  - intros He. exists 0, req. simpl. by rewrite (right_id_L [] (++)).
  - intros ([|i] & r & Hi & He); [|done].
    injection Hi as <-. simpl in He. by rewrite (right_id_L [] (++)) in He.
Qed.

Lemma propagates_await {A B} (m : Promise A) (k : A → Promise B) :
  propagates env m → (∀ a, propagates env (k a)) → propagates env (await m k).
Proof.
  intros Hm Hk log. destruct (Hm log) as (reqs & Hlog & Hrej).
  unfold await. destruct (m log) as [[e0|a] log'] eqn:Hrun; simpl in *; subst log'.
  - exists reqs. split; [done|]. intros e. rewrite <-Hrej.
    split; intros [= ->]; done.
  - destruct (Hk a (log ++ reqs)) as (more & Hlog' & Hrej').
    exists (reqs ++ more). split; [by rewrite Hlog', (assoc_L (++))|].
    intros e. rewrite Hrej'. split.
    + apply failed_app_r.
    + intros [Hf|Hf]%failed_app_inv; [|done]. by apply Hrej in Hf.
Qed.

Lemma propagates_fmap {A B} (f : A → B) (m : Promise A) :
  propagates env m → propagates env (f <$> m).
Proof. intros Hm. apply propagates_await; [done|]. intros a. apply propagates_resolve. Qed.

Lemma propagates_getBlobImage repository path commitish :
  propagates env (getBlobImage env repository path commitish).
Proof.
  apply propagates_await; [apply propagates_request|].
  intros b. apply propagates_resolve.
Qed.

Lemma propagates_getWorkingDirectoryImage repository file :
  propagates env (getWorkingDirectoryImage env repository file).
Proof.
  apply propagates_await.
  - apply propagates_await; [apply propagates_request|].
    intros b. apply propagates_resolve.
  - intros b. apply propagates_resolve.
Qed.

Lemma propagates_getImageDiff repository file commitish :
  propagates env (getImageDiff env repository file commitish).
Proof.
  unfold getImageDiff, mbind, Promise_bind.
  repeat first
    [ apply propagates_getBlobImage
    | apply propagates_getWorkingDirectoryImage
    | apply propagates_resolve
    | apply propagates_fmap
    | apply propagates_await
    | match goal with
      | |- ∀ _, propagates _ _ => intro
      | |- context [if ?b then _ else _] => destruct b
      end ].
Qed.

End Propagation.

(** ** The image resolver *)

Section Resolver.

Context (env : Collaborators) (repository : Repository) (file : FileChange).
Context (commitish : string) (log : list Request).

Lemma getBlobImage_run path rev l :
  getBlobImage env repository path rev l
  = match outcome env l (GetBlobContents repository rev path) with
    | inr bytes => (inr (image_of env path bytes), l ++ [GetBlobContents repository rev path])
    | inl e => (inl e, l ++ [GetBlobContents repository rev path])
    end.
Proof.
  unfold getBlobImage, getBlobContents, request, mbind, Promise_bind, await.
  by destruct (outcome env l _).
Qed.

Lemma getWorkingDirectoryImage_run l :
  getWorkingDirectoryImage env repository file l
  = match outcome env l (ReadFile (join env (repository_path repository) (path file))) with
    | inr bytes =>
        (inr (image_of env (path file) bytes),
         l ++ [ReadFile (join env (repository_path repository) (path file))])
    | inl e => (inl e, l ++ [ReadFile (join env (repository_path repository) (path file))])
    end.
Proof.
  unfold getWorkingDirectoryImage, getWorkingDirectoryContents, readFile, request,
    mbind, Promise_bind, await.
  by destruct (outcome env l _).
Qed.

Ltac run_resolver :=
  unfold getImageDiff, mbind, Promise_bind, fmap, Promise_fmap, await, resolve;
  rewrite ?getWorkingDirectoryImage_run, ?getBlobImage_run.

(** C7: a new file has no previous side, and the only request issued is the
    read of the current side; a deleted file has no current side, and the
    only request issued is the read of the previous side; a conflicted file
    of the working directory has neither side and no request is issued. *)
Theorem resolver_skips_missing_sides :
  let run := getImageDiff env repository file commitish log in
  (status file = New →
     let current :=
       if inWorkingDirectory file
       then ReadFile (join env (repository_path repository) (path file))
       else GetBlobContents repository commitish (path file) in
     run = match outcome env log current with
           | inr bytes =>
               (inr {| previous := None; current := Some (image_of env (path file) bytes) |},
                log ++ [current])
           | inl e => (inl e, log ++ [current])
           end)
  ∧ (status file = Deleted →
     let prior := or_else (oldPath file) (path file) in
     let previous :=
       GetBlobContents repository
         (if inWorkingDirectory file then "HEAD" else commitish +:+ "^") prior in
     run = match outcome env log previous with
           | inr bytes =>
               (inr {| previous := Some (image_of env prior bytes); current := None |},
                log ++ [previous])
           | inl e => (inl e, log ++ [previous])
           end)
  ∧ (inWorkingDirectory file = true → status file = Conflicted →
     run = (inr {| previous := None; current := None |}, log)).
Proof.
  simpl. split; [|split].
  - intros Hs. run_resolver. rewrite Hs.
    destruct (inWorkingDirectory file); simpl;
      rewrite ?getWorkingDirectoryImage_run, ?getBlobImage_run;
      by destruct (outcome env log _).
  - intros Hs. run_resolver. rewrite Hs.
    destruct (inWorkingDirectory file); simpl;
      rewrite ?getBlobImage_run; by destruct (outcome env log _).
  - intros Hw Hs. unfold getImageDiff. by rewrite Hw, Hs.
Qed.

(** C8: for a renamed file of the working directory that has a prior path, the
    current side is read from the working tree at the current path and the
    previous side from [HEAD] at the prior path; these are the only requests,
    and when both fulfil the two sides are the images of their bytes. *)
Theorem resolver_reads_prior_path (prior : string) :
  inWorkingDirectory file = true → status file = Renamed →
  oldPath file = Some prior → prior ≠ EmptyString →
  let current := ReadFile (join env (repository_path repository) (path file)) in
  let previous := GetBlobContents repository "HEAD" prior in
  let run := getImageDiff env repository file commitish log in
  (run.2 = log ++ [current] ∨ run.2 = log ++ [current; previous])
  ∧ (∀ tree, outcome env log current = inr tree →
       run.2 = log ++ [current; previous]
       ∧ ∀ blob, outcome env (log ++ [current]) previous = inr blob →
           run.1 = inr {| previous := Some (image_of env prior blob);
                          current := Some (image_of env (path file) tree) |}).
Proof.
  intros Hw Hs Hold Hne. simpl.
  assert (or_else (oldPath file) (path file) = prior) as Hprior.
  { rewrite Hold. by destruct prior. }
  run_resolver. rewrite Hw, Hs, Hprior. simpl.
  rewrite getWorkingDirectoryImage_run.
  destruct (outcome env log (ReadFile _)) as [e|tree] eqn:Htree.
  - split; [by left|]. intros ? [=].
  - rewrite getBlobImage_run.
    destruct (outcome env _ (GetBlobContents _ _ _)) as [e|blob] eqn:Hblob; simpl;
      rewrite <-(assoc_L (++)); simpl.
    + split; [by right|]. intros ? [= <-]. split; [done|]. intros ? [=].
    + split; [by right|]. intros ? [= <-]. split; [done|]. by intros ? [= <-].
Qed.

End Resolver.

Lemma resolver_skips_missing_sides_witness :
  getImageDiff history repo (committed "logo.gif" New) "abc123" []
  = (inr {| previous := None;
            current := Some {| contents := "UE5H"; mediaType := "image/gif" |} |},
     [GetBlobContents repo "abc123" "logo.gif"])
  ∧ getImageDiff history repo (committed "logo.gif" Deleted) "abc123" []
    = (inr {| previous := Some {| contents := "UE5H"; mediaType := "image/gif" |};
              current := None |},
       [GetBlobContents repo "abc123^" "logo.gif"])
  ∧ getImageDiff after_rename repo (in_tree "new.png" Conflicted) "HEAD" []
    = (inr {| previous := None; current := None |}, []).
Proof.
  split; [|split].
  - destruct (resolver_skips_missing_sides history repo (committed "logo.gif" New)
                "abc123" []) as (Hnew & _ & _).
    rewrite Hnew; reflexivity.
  - destruct (resolver_skips_missing_sides history repo (committed "logo.gif" Deleted)
                "abc123" []) as (_ & Hdeleted & _).
    rewrite Hdeleted; reflexivity.
  - destruct (resolver_skips_missing_sides after_rename repo
                (in_tree "new.png" Conflicted) "HEAD" []) as (_ & _ & Hconflicted).
    apply Hconflicted; reflexivity.
Defined.

Lemma resolver_reads_prior_path_witness :
  getImageDiff after_rename repo renamed_file "HEAD" []
  = (inr {| previous := Some {| contents := "UE5H"; mediaType := "image/png" |};
            current := Some {| contents := "UE5H"; mediaType := "image/png" |} |},
     [ReadFile "/repo/new.png"; GetBlobContents repo "HEAD" "old.png"]).
Proof.
  destruct (resolver_reads_prior_path after_rename repo renamed_file "HEAD" [] "old.png")
    as [_ Hreads]; [reflexivity | reflexivity | reflexivity | discriminate |].
  destruct (Hreads pixels) as [Hlog Himage]; [reflexivity|].
  specialize (Himage pixels eq_refl).
  destruct (getImageDiff after_rename repo renamed_file "HEAD" []) as [res log'].
  simpl in Hlog, Himage. by rewrite Hlog, Himage.
Defined.

(** ** Classification of binary diffs *)

Section BinaryDiffs.

Context (env : Collaborators) (repository : Repository) (file : FileChange).
Context (diff : RawDiff) (commitish : string) (log : list Request).

Lemma fmap_run {A B} (f : A → B) (m : Promise A) l :
  (f <$> m) l = match m l with
                | (inr a, l') => (inr (f a), l')
                | (inl e, l') => (inl e, l')
                end.
Proof. reflexivity. Qed.

Lemma convertDiff_image_run :
  isBinary diff = true → image_extension (extname env (path file)) →
  convertDiff env repository file diff commitish log
  = match getImageDiff env repository file commitish log with
    | (inr image, log') => (inr (ImageDiff image), log')
    | (inl e, log') => (inl e, log')
    end.
Proof.
  intros Hbin Hext%imageFileExtensions_has.
  by rewrite convertDiff_binary, bool_decide_eq_true_2, fmap_run.
Qed.

(** C1: a conversion that reaches the image resolver rejects with the error
    of a read exactly when a read it issued failed with that error, and it
    fulfils with the image variant when none failed. *)
Theorem read_failure_rejects_conversion :
  isBinary diff = true → image_extension (extname env (path file)) →
  let run := convertDiff env repository file diff commitish log in
  ∃ reqs,
    run.2 = log ++ reqs
    ∧ (∀ e, failed env log reqs e ↔ run.1 = inl e)
    ∧ ((∀ e, ¬ failed env log reqs e) → ∃ image, run.1 = inr (ImageDiff image)).
Proof.
  intros Hbin Hext. simpl. rewrite convertDiff_image_run by done.
  destruct (propagates_getImageDiff env repository file commitish log)
    as (reqs & Hlog & Hrej).
  exists reqs.
  destruct (getImageDiff env repository file commitish log) as [[e0|image] log'];
    simpl in *; (split; [done|]); split.
  - intros e. rewrite <-Hrej. split; intros [= ->]; done.
  - intros Hnone. destruct (Hnone e0). by apply Hrej.
  - intros e. rewrite <-Hrej. split; intros [=].
  - intros _. by exists image.
Qed.

(** C3: a binary diff whose file has none of the four image extensions is
    converted to the binary variant, without payload or request; with one of
    them the conversion is that of the image resolver, which fulfils with the
    image variant unless a read fails and rejects with the error of the failed
    read otherwise.  A fulfilled conversion of a binary diff is never the text
    or the submodule variant, and it is the image variant exactly when the
    extension is one of the four. *)
Theorem binary_diff_classification :
  isBinary diff = true →
  let extension := extname env (path file) in
  let run := convertDiff env repository file diff commitish log in
  (¬ image_extension extension → run = (inr BinaryDiff, log))
  ∧ (image_extension extension →
     ∃ reqs,
       run.2 = log ++ reqs
       ∧ (∀ e, failed env log reqs e → run.1 = inl e)
       ∧ ((∀ e, ¬ failed env log reqs e) → ∃ image, run.1 = inr (ImageDiff image)))
  ∧ (∀ d, run.1 = inr d →
       match d with
       | ImageDiff _ => image_extension extension
       | BinaryDiff => ¬ image_extension extension
       | TextDiff _ _ _ _ | SubmoduleDiff => False
       end).
Proof.
  intros Hbin. simpl. split; [|split].
  - intros Hext. rewrite convertDiff_binary by done.
    rewrite bool_decide_eq_false_2; [done|]. by rewrite imageFileExtensions_has.
  - intros Hext. rewrite convertDiff_image_run by done.
    destruct (propagates_getImageDiff env repository file commitish log)
      as (reqs & Hlog & Hrej).
    exists reqs.
    destruct (getImageDiff env repository file commitish log) as [[e0|image] log'];
      simpl in *; (split; [done|]); split.
    + intros e He%Hrej. by injection He as ->.
    + intros Hnone. destruct (Hnone e0). by apply Hrej.
    + intros e He%Hrej. done.
    + intros _. by exists image.
  - intros d. rewrite convertDiff_binary by done. case_bool_decide as Hext.
    + rewrite fmap_run.
      destruct (getImageDiff env repository file commitish log) as [[e|image] log'];
        simpl; intros [= <-]. by apply imageFileExtensions_has.
    + simpl. intros [= <-]. by rewrite <-imageFileExtensions_has.
Qed.

End BinaryDiffs.

Lemma read_failure_rejects_conversion_witness :
  isBinary binary_diff = true
  ∧ image_extension (extname tree_only (path (in_tree "a.png" New)))
  ∧ ∃ reqs,
      (convertDiff tree_only repo (in_tree "a.png" New) binary_diff "HEAD" []).2
      = [] ++ reqs
      ∧ (∀ e, failed tree_only [] reqs e
              ↔ (convertDiff tree_only repo (in_tree "a.png" New) binary_diff "HEAD" []).1
                = inl e)
      ∧ ((∀ e, ¬ failed tree_only [] reqs e) →
         ∃ image,
           (convertDiff tree_only repo (in_tree "a.png" New) binary_diff "HEAD" []).1
           = inr (ImageDiff image)).
Proof.
  split; [reflexivity|]. split; [by left|].
  apply (read_failure_rejects_conversion tree_only repo (in_tree "a.png" New)
           binary_diff "HEAD" []); [reflexivity | by left].
Defined.

(** The working-tree read of a modified image succeeds and the blob read
    fails: the conversion rejects instead of returning the current side. *)
Lemma recoverable_side_is_lost :
  outcome tree_only [] (ReadFile "/repo/a.png") = inr pixels
  ∧ convertDiff tree_only repo (in_tree "a.png" Modified) binary_diff "HEAD" []
    = (inl (ReadFailure "fatal: Path 'a.png' does not exist in 'HEAD'"),
       [ReadFile "/repo/a.png"; GetBlobContents repo "HEAD" "a.png"])
  ∧ ¬ ∃ image log',
        convertDiff tree_only repo (in_tree "a.png" Modified) binary_diff "HEAD" []
        = (inr (ImageDiff image), log').
Proof.
  split; [reflexivity|]. split; [reflexivity|].
  intros (image & log' & Hrun). vm_compute in Hrun. discriminate.
Defined.

Lemma binary_diff_classification_witness :
  convertDiff history repo (committed "notes.pdf" Modified) binary_diff "abc123" []
  = (inr BinaryDiff, [])
  ∧ convertDiff history repo (committed "logo.GIF" Modified) binary_diff "abc123" []
    = (inr BinaryDiff, [])
  ∧ ∃ reqs,
      (convertDiff history repo (committed "logo.gif" Modified) binary_diff "abc123" []).2
      = [] ++ reqs
      ∧ (∀ e, failed history [] reqs e →
              (convertDiff history repo (committed "logo.gif" Modified) binary_diff
                 "abc123" []).1 = inl e)
      ∧ ((∀ e, ¬ failed history [] reqs e) →
         ∃ image,
           (convertDiff history repo (committed "logo.gif" Modified) binary_diff
              "abc123" []).1 = inr (ImageDiff image)).
Proof.
  split; [|split].
  - apply (binary_diff_classification history repo (committed "notes.pdf" Modified)
             binary_diff "abc123" []); [reflexivity|].
    vm_compute. intros [H|[H|[H|H]]]; discriminate H.
  - apply (binary_diff_classification history repo (committed "logo.GIF" Modified)
             binary_diff "abc123" []); [reflexivity|].
    vm_compute. intros [H|[H|[H|H]]]; discriminate H.
  - apply (binary_diff_classification history repo (committed "logo.gif" Modified)
             binary_diff "abc123" []); [reflexivity|].
    vm_compute. tauto.
Defined.

(** A binary diff of a [.gif] whose blobs cannot be read is not converted to
    the image variant. *)
Lemma unreadable_image_is_not_classified :
  isBinary binary_diff = true
  ∧ image_extension (extname empty_disk (path (committed "logo.gif" Modified)))
  ∧ convertDiff empty_disk repo (committed "logo.gif" Modified) binary_diff "abc123" []
    = (inl (ReadFailure "fatal: Path 'logo.gif' does not exist in 'abc123'"),
       [GetBlobContents repo "abc123" "logo.gif"])
  ∧ ¬ ∃ image log',
        convertDiff empty_disk repo (committed "logo.gif" Modified) binary_diff "abc123" []
        = (inr (ImageDiff image), log').
Proof.
  split; [reflexivity|]. split; [vm_compute; tauto|]. split; [reflexivity|].
  intros (image & log' & Hrun). vm_compute in Hrun. discriminate.
Defined.

(** ** Classification of text diffs *)

Section TextDiffs.

Context (env : Collaborators) (repository : Repository) (file : FileChange).
Context (commitish : string) (log : list Request).

(** C2: on a diff that is not binary and whose first hunk has no line, the
    conversion rejects with the type error of reading [text] of [undefined]:
    it is not converted to the text variant. *)
Theorem hunk_without_lines_rejects (diff : RawDiff) hunk rest :
  isBinary diff = false → hunks diff = hunk :: rest → lines hunk = [] →
  convertDiff env repository file diff commitish log
  = (inl (TypeError "Cannot read property 'text' of undefined"), log).
Proof.
  intros Hbin Hh Hl. rewrite convertDiff_not_binary by done.
  by rewrite (firstLineLooksLikeSubmodule_no_lines _ _ hunk rest).
Qed.


Lemma firstLineLooksLikeSubmodule_log (diff : RawDiff) :
  (firstLineLooksLikeSubmodule diff log).2 = log.
Proof.
  destruct (hunks diff) as [|hunk rest] eqn:Hh.
  - by rewrite firstLineLooksLikeSubmodule_no_hunks.
  - destruct (lines hunk) as [|l ls] eqn:Hl.
    + by rewrite (firstLineLooksLikeSubmodule_no_lines _ _ hunk rest).
    + by rewrite (firstLineLooksLikeSubmodule_line _ _ hunk rest l ls).
Qed.

(** C10: when the conversion yields the text variant, its hunks and its two
    lookups are those of the raw diff, its text is the normalized text, and no
    request was issued. *)
Theorem text_variant_keeps_hunks (diff : RawDiff) t hs lineFor hunkFor log' :
  convertDiff env repository file diff commitish log
  = (inr (TextDiff t hs lineFor hunkFor), log') →
  hs = hunks diff
  ∧ lineFor = diffLineForIndex diff
  ∧ hunkFor = diffHunkForIndex diff
  ∧ t = diffText (hunks diff)
  ∧ log' = log.
Proof.
  destruct (isBinary diff) eqn:Hbin.
  - rewrite convertDiff_binary by done. case_bool_decide; [|done].
    rewrite fmap_run.
    by destruct (getImageDiff env repository file commitish log) as [[e|image] l].
  - rewrite convertDiff_not_binary by done.
    pose proof (firstLineLooksLikeSubmodule_log diff) as Hlog.
    destruct (firstLineLooksLikeSubmodule diff log) as [[e|[]] l]; [done..|].
    simpl in Hlog. by intros [= <- <- <- <- <-].
Qed.

End TextDiffs.

Lemma hunk_without_lines_rejects_witness :
  convertDiff empty_disk repo (in_tree "notes.txt" Modified) (text_diff [[]]) "HEAD" []
  = (inl (TypeError "Cannot read property 'text' of undefined"), []).
Proof. eapply hunk_without_lines_rejects; reflexivity. Defined.


(** Only the first hunk is inspected: a marker at the head of a later hunk
    leaves the diff a text diff. *)
Lemma submodule_marker_in_later_hunk_ignored :
  convertDiff empty_disk repo (in_tree "notes.txt" Modified)
    (text_diff [["@@ -1 +1 @@" +:+ LF]; ["Subproject commit 1a2b3c" +:+ LF]]) "HEAD" []
  = (inr (TextDiff (("@@ -1 +1 @@" +:+ LF) +:+ "Subproject commit 1a2b3c" +:+ LF)
            (hunks (text_diff [["@@ -1 +1 @@" +:+ LF]; ["Subproject commit 1a2b3c" +:+ LF]]))
            no_lookup no_lookup), []).
Proof. reflexivity. Qed.

Lemma text_variant_keeps_hunks_witness :
  hunks mixed_endings = hunks mixed_endings
  ∧ (no_lookup : Z → option DiffLine) = diffLineForIndex mixed_endings
  ∧ (no_lookup : Z → option DiffHunk) = diffHunkForIndex mixed_endings
  ∧ ("a" +:+ CR +:+ LF) +:+ ("b" +:+ CR +:+ LF) +:+ ("c" +:+ LF)
    = diffText (hunks mixed_endings)
  ∧ ([] : list Request) = [].
Proof.
  apply (text_variant_keeps_hunks empty_disk repo (in_tree "notes.txt" Modified) "HEAD" []).
  reflexivity.
Defined.

(** * Further properties *)

(** ** Shape of the normalized text *)

Lemma string_length_app s t :
  String.length (s +:+ t) = String.length s + String.length t.
Proof. induction s as [|c s IH]; [done|]. rewrite string_app_cons. simpl. by rewrite IH. Qed.

Lemma formatLineEnding_terminator text :
  ∃ terminator,
    formatLineEnding text = text +:+ terminator
    ∧ (terminator = EmptyString ∨ terminator = LF ∨ terminator = CR +:+ LF).
Proof.
  unfold formatLineEnding.
  destruct (endsWith text LF); [|destruct (endsWith text CR)].
  - exists EmptyString. by rewrite string_app_nil_r; auto.
  - exists LF. auto.
  - exists (CR +:+ LF). auto.
Qed.

Lemma formatLineEnding_length text :
  String.length text ≤ String.length (formatLineEnding text) ≤ String.length text + 2.
Proof.
  destruct (formatLineEnding_terminator text) as (t & -> & [->|[->| ->]]);
    rewrite string_length_app; simpl; lia.
Qed.

Lemma formatLineEnding_ends_in_LF text : ends_in (formatLineEnding text) LF.
Proof.
  unfold formatLineEnding.
  destruct (endsWith text LF) eqn:Hlf; [by apply endsWith_ends_in|].
  destruct (endsWith text CR).
  - by exists text.
  - exists (text +:+ CR). by rewrite string_app_assoc.
Qed.

(** X1: a formatted line always ends in a line feed, so that formatting a
    line twice is the same as formatting it once. *)
Theorem formatLineEnding_idempotent text :
  ends_in (formatLineEnding text) LF
  ∧ formatLineEnding (formatLineEnding text) = formatLineEnding text.
Proof.
  pose proof (formatLineEnding_ends_in_LF text) as Hends.
  split; [done|]. unfold formatLineEnding at 1.
  apply endsWith_ends_in in Hends. by rewrite Hends.
Qed.

(** X2: the normalized text is at least as long as the texts of the lines
    together, and longer by at most two characters for each line. *)
Theorem diffText_length (hs : list DiffHunk) :
  let texts := text <$> (hs ≫= lines) in
  sum_list (String.length <$> texts) ≤ String.length (diffText hs)
  ∧ String.length (diffText hs) ≤ sum_list (String.length <$> texts) + 2 * length texts.
Proof.
  simpl. rewrite diffText_concat.
  induction (hs ≫= lines) as [|l ls IH]; [simpl; lia|].
  rewrite !fmap_cons. simpl. rewrite string_length_app.
  pose proof (formatLineEnding_length (text l)). lia.
Qed.

(** X3: the normalized text of hunks put one after the other is the
    concatenation of their normalized texts, and it only depends on the
    sequence of the lines, not on their grouping into hunks. *)
Theorem diffText_app (hs1 hs2 : list DiffHunk) :
  diffText (hs1 ++ hs2) = diffText hs1 +:+ diffText hs2
  ∧ diffText hs1 = diffText [ {| lines := hs1 ≫= lines |} ].
Proof.
  rewrite !diffText_concat. split.
  - by rewrite bind_app, fmap_app, concat_strings_app.
  - simpl. by rewrite (right_id_L [] (++)).
Qed.

(** X4: the normalized text is empty when the diff has no line, and ends in
    a line feed otherwise. *)
Theorem diffText_empty_or_terminated (hs : list DiffHunk) :
  (hs ≫= lines = [] ∧ diffText hs = EmptyString)
  ∨ (hs ≫= lines ≠ [] ∧ ends_in (diffText hs) LF).
Proof.
  rewrite diffText_concat.
  destruct (hs ≫= lines) as [|l ls _] using rev_ind; [by left|right].
  split; [by destruct ls|].
  rewrite fmap_app, concat_strings_app. simpl. rewrite string_app_nil_r.
  destruct (formatLineEnding_ends_in_LF (text l)) as [before ->].
  eexists. by rewrite <-string_app_assoc.
Qed.

(** ** Diffs that are not binary *)

(** X5: a diff that is not binary and has no hunk, or whose first hunk starts
    with a line without [Subproject], is converted to the text variant with
    the normalized text, and no request is issued. *)
Theorem unmarked_diff_is_text env repository file (diff : RawDiff) commitish log :
  isBinary diff = false →
  (hunks diff = []
   ∨ ∃ hunk rest l ls,
       hunks diff = hunk :: rest ∧ lines hunk = l :: ls
       ∧ ¬ contains (text l) "Subproject") →
  convertDiff env repository file diff commitish log
  = (inr (TextDiff (diffText (hunks diff)) (hunks diff)
            (diffLineForIndex diff) (diffHunkForIndex diff)), log).
Proof.
  intros Hbin Hshape. rewrite convertDiff_not_binary by done.
  destruct Hshape as [Hnone|(hunk & rest & l & ls & Hh & Hl & Hmark)].
  - by rewrite firstLineLooksLikeSubmodule_no_hunks.
  - rewrite (firstLineLooksLikeSubmodule_line _ _ hunk rest l ls) by done.
    rewrite <-indexOf_found in Hmark. by destruct (indexOf _ _ >? -1)%Z.
Qed.

Lemma unmarked_diff_is_text_witness :
  convertDiff empty_disk repo (in_tree "run.sh" Modified) (text_diff []) "HEAD" []
  = (inr (TextDiff EmptyString [] no_lookup no_lookup), [])
  ∧ convertDiff empty_disk repo (in_tree "notes.txt" Modified) mixed_endings "HEAD" []
    = (inr (TextDiff (diffText (hunks mixed_endings)) (hunks mixed_endings)
              no_lookup no_lookup), []).
Proof.
  split.
  - apply (unmarked_diff_is_text empty_disk repo (in_tree "run.sh" Modified)
             (text_diff [])); [reflexivity | by left].
  - apply (unmarked_diff_is_text empty_disk repo (in_tree "notes.txt" Modified)
             mixed_endings); [reflexivity|].
    right. eexists _, _, _, _. split; [reflexivity|]. split; [reflexivity|].
    intros Hmark%indexOf_found. vm_compute in Hmark. discriminate Hmark.
Defined.

(** X6: the conversion of a diff that is not binary issues no request, rejects
    exactly when the first hunk has no line, and has the same outcome for
    every repository, file, revision and environment. *)
Theorem text_conversion_depends_on_diff_only env repository file (diff : RawDiff)
  commitish log :
  isBinary diff = false →
  let run := convertDiff env repository file diff commitish log in
  run.2 = log
  ∧ ((∃ e, run.1 = inl e) ↔ ∃ hunk rest, hunks diff = hunk :: rest ∧ lines hunk = [])
  ∧ (∀ env' repository' file' commitish' log',
       (convertDiff env' repository' file' diff commitish' log').1 = run.1).
Proof.
  intros Hbin. simpl. split; [|split].
  - rewrite convertDiff_not_binary by done.
    pose proof (firstLineLooksLikeSubmodule_log log diff) as Hlog.
    by destruct (firstLineLooksLikeSubmodule diff log) as [[e|[]] l].
  - rewrite convertDiff_not_binary by done.
    destruct (hunks diff) as [|hunk rest] eqn:Hh.
    { rewrite firstLineLooksLikeSubmodule_no_hunks by done.
      split; [by intros [e ?]|by intros (? & ? & ? & _)]. }
    destruct (lines hunk) as [|l ls] eqn:Hl.
    { rewrite (firstLineLooksLikeSubmodule_no_lines _ _ hunk rest) by done.
      split; [by exists hunk, rest|by eexists]. }
    rewrite (firstLineLooksLikeSubmodule_line _ _ hunk rest l ls) by done.
    split.
    + intros [e He]. by destruct (indexOf _ _ >? -1)%Z.
    + intros (hunk' & rest' & [= <- <-] & Hl'). congruence.
  - intros env' repository' file' commitish' log'.
    rewrite !convertDiff_not_binary by done.
    destruct (hunks diff) as [|hunk rest] eqn:Hh.
    { by rewrite !firstLineLooksLikeSubmodule_no_hunks. }
    destruct (lines hunk) as [|l ls] eqn:Hl.
    { by rewrite !(firstLineLooksLikeSubmodule_no_lines _ _ hunk rest). }
    rewrite !(firstLineLooksLikeSubmodule_line _ _ hunk rest l ls) by done.
    by destruct (indexOf _ _ >? -1)%Z.
Qed.

Lemma text_conversion_depends_on_diff_only_witness :
  (convertDiff after_rename repo renamed_file mixed_endings "abc123"
     [ReadFile "/repo/new.png"]).1
  = (convertDiff empty_disk repo (in_tree "notes.txt" Modified) mixed_endings "HEAD" []).1.
Proof.
  apply (text_conversion_depends_on_diff_only empty_disk repo
           (in_tree "notes.txt" Modified) mixed_endings "HEAD" []).
  reflexivity.
Defined.

(** ** Media types of the resolved images *)

Lemma image_extension_not_fallback extension :
  extension ∈ imageFileExtensions → getMediaType extension ≠ "text/plain".
Proof. by intros [->|[->|[->| ->]]]%imageFileExtensions_has. Qed.

(** X7: the extensions that are rendered as images are exactly those whose
    media type is not the plain-text fallback. *)
Theorem image_extensions_have_image_types extension :
  extension ∈ imageFileExtensions ↔ getMediaType extension ≠ "text/plain".
Proof.
  split; [apply image_extension_not_fallback|].
  rewrite imageFileExtensions_has. unfold image_extension, getMediaType.
  destruct (String.eqb_spec extension ".png"); [by auto|].
  destruct (String.eqb_spec extension ".jpg"); [by auto|].
  destruct (String.eqb_spec extension ".jpeg"); [by auto|].
  destruct (String.eqb_spec extension ".gif"); [by auto|]. done.
Qed.

Lemma image_extensions_have_image_types_witness :
  getMediaType ".jpeg" ≠ "text/plain" ∧ ".txt" ∉ imageFileExtensions.
Proof.
  split.
  - apply image_extensions_have_image_types, imageFileExtensions_has.
    do 2 right. by left.
  - intros Hin%image_extensions_have_image_types. by apply Hin.
Defined.

(** ** Requests and sides of the resolver *)

Ltac resolver_cases file :=
  unfold getImageDiff;
  destruct (inWorkingDirectory file) eqn:?, (status file) eqn:?; simpl;
  unfold mbind, Promise_bind, fmap, Promise_fmap, await, resolve;
  rewrite ?getWorkingDirectoryImage_run, ?getBlobImage_run;
  repeat (match goal with
          | |- context [match outcome ?e ?l ?r with _ => _ end] =>
              destruct (outcome e l r) eqn:?
          end; simpl; rewrite ?getBlobImage_run).

Lemma getImageDiff_sides env repository file commitish log image log' :
  getImageDiff env repository file commitish log = (inr image, log') →
  (∀ side, current image = Some side →
           ∃ bytes, side = image_of env (path file) bytes)
  ∧ (∀ side, previous image = Some side →
             ∃ bytes, side = image_of env (or_else (oldPath file) (path file)) bytes).
Proof.
  resolver_cases file; intros [= <- <-]; simpl;
    split; intros side [= <-]; by eexists.
Qed.

(** X8: in the image variant of a converted binary diff, the media type of
    the current side is the one of the extension of the path, never the
    plain-text fallback, and the media type of the previous side is the one of
    the extension of the prior path when there is one, of the path
    otherwise. *)
Theorem converted_image_media_types env repository file (diff : RawDiff) commitish
  log image log' :
  isBinary diff = true →
  convertDiff env repository file diff commitish log = (inr (ImageDiff image), log') →
  (∀ side, current image = Some side →
           mediaType side = getMediaType (extname env (path file))
           ∧ mediaType side ≠ "text/plain")
  ∧ (∀ side, previous image = Some side →
             mediaType side
             = getMediaType (extname env (or_else (oldPath file) (path file)))).
Proof.
  intros Hbin. rewrite convertDiff_binary by done.
  case_bool_decide as Hext; [|done]. rewrite fmap_run.
  destruct (getImageDiff env repository file commitish log) as [[e|image'] l] eqn:Hrun;
    [done|].
  intros [= -> ->]. apply getImageDiff_sides in Hrun as [Hcur Hprev]. split.
  - intros side [bytes ->]%Hcur. split; [done|].
    by apply image_extension_not_fallback.
  - by intros side [bytes ->]%Hprev.
Qed.

Lemma converted_image_media_types_witness :
  convertDiff after_retyping repo retyped_file binary_diff "HEAD" []
  = (inr (ImageDiff
            {| previous := Some {| contents := "UE5H"; mediaType := "text/plain" |};
               current := Some {| contents := "UE5H"; mediaType := "image/png" |} |}),
     [ReadFile "/repo/new.png"; GetBlobContents repo "HEAD" "notes.txt"])
  ∧ mediaType {| contents := "UE5H"; mediaType := "image/png" |} ≠ "text/plain"
  ∧ mediaType {| contents := "UE5H"; mediaType := "text/plain" |}
    = getMediaType (extname after_retyping "notes.txt").
Proof.
  assert (convertDiff after_retyping repo retyped_file binary_diff "HEAD" []
          = (inr (ImageDiff
                    {| previous := Some {| contents := "UE5H"; mediaType := "text/plain" |};
                       current := Some {| contents := "UE5H"; mediaType := "image/png" |} |}),
             [ReadFile "/repo/new.png"; GetBlobContents repo "HEAD" "notes.txt"]))
    as Hrun by reflexivity.
  split; [exact Hrun|].
  destruct (converted_image_media_types after_retyping repo retyped_file binary_diff
              "HEAD" [] _ _ eq_refl Hrun) as [Hcur Hprev].
  split; [by apply Hcur | by apply Hprev].
Defined.

(** X9: in a fulfilled resolution the current side is absent exactly for a
    deleted file, the previous side exactly for a new file, and both for a
    conflicted file of the working directory. *)
Theorem resolved_sides_by_status env repository file commitish log image log' :
  getImageDiff env repository file commitish log = (inr image, log') →
  (current image = None
   ↔ status file = Deleted ∨ (inWorkingDirectory file = true ∧ status file = Conflicted))
  ∧ (previous image = None
     ↔ status file = New ∨ (inWorkingDirectory file = true ∧ status file = Conflicted)).
Proof.
  resolver_cases file; intros [= <- <-]; simpl;
    intuition (congruence || discriminate).
Qed.

Lemma resolved_sides_by_status_witness :
  (current {| previous := Some {| contents := "UE5H"; mediaType := "image/gif" |};
              current := None |} = None
   ↔ status (committed "logo.gif" Deleted) = Deleted
     ∨ (inWorkingDirectory (committed "logo.gif" Deleted) = true
        ∧ status (committed "logo.gif" Deleted) = Conflicted))
  ∧ (previous {| previous := Some {| contents := "UE5H"; mediaType := "image/gif" |};
                 current := None |} = None
     ↔ status (committed "logo.gif" Deleted) = New
       ∨ (inWorkingDirectory (committed "logo.gif" Deleted) = true
          ∧ status (committed "logo.gif" Deleted) = Conflicted)).
Proof.
  apply (resolved_sides_by_status history repo (committed "logo.gif" Deleted) "abc123" []
           _ [GetBlobContents repo "abc123^" "logo.gif"]).
  reflexivity.
Defined.

(** X10: the resolver only appends to the log, and what it appends is, in
    this order and each at most once, the request for the current side (the
    file of the working tree, or the blob at the revision for a committed
    change) and the request for the previous side (the blob of the prior path
    at [HEAD], or at the parent of the revision for a committed change). *)
Theorem resolver_requests_in_order env repository file commitish log :
  let prior := or_else (oldPath file) (path file) in
  let current_side :=
    if inWorkingDirectory file
    then ReadFile (join env (repository_path repository) (path file))
    else GetBlobContents repository commitish (path file) in
  let previous_side :=
    GetBlobContents repository
      (if inWorkingDirectory file then "HEAD" else commitish +:+ "^") prior in
  ∃ reqs,
    (getImageDiff env repository file commitish log).2 = log ++ reqs
    ∧ sublist reqs [current_side; previous_side].
Proof.
  simpl. resolver_cases file;
    first
      [ exists []; split; [by rewrite (right_id_L [] (++))|apply sublist_nil_l]
      | eexists; split; [by rewrite <-?(assoc_L (++))|];
        repeat first [apply sublist_skip | apply sublist_cons | apply sublist_nil] ].
Qed.

(** X11: a fulfilled resolution has issued exactly one request for each side
    that is present. *)
Theorem resolver_one_request_per_side env repository file commitish log image log' :
  getImageDiff env repository file commitish log = (inr image, log') →
  ∃ reqs,
    log' = log ++ reqs
    ∧ length reqs
      = (match current image with Some _ => 1 | None => 0 end)
        + (match previous image with Some _ => 1 | None => 0 end).
Proof.
  resolver_cases file; intros [= <- <-]; simpl;
    first
      [ by exists []; rewrite (right_id_L [] (++))
      | eexists; split; [by rewrite <-?(assoc_L (++))|done] ].
Qed.

Lemma resolver_one_request_per_side_witness :
  ∃ reqs,
    [GetBlobContents repo "abc123^" "logo.gif"] = [] ++ reqs
    ∧ length reqs = 0 + 1.
Proof.
  apply (resolver_one_request_per_side history repo (committed "logo.gif" Deleted)
           "abc123" []
           {| previous := Some {| contents := "UE5H"; mediaType := "image/gif" |};
              current := None |}).
  reflexivity.
Defined.

(** X12: for a committed change that is neither new nor deleted, the current
    side is the blob of the path at the revision and the previous side the
    blob of the prior path at the parent of the revision, read in this order;
    the resolution rejects with the error of the first read that fails, and
    otherwise fulfils with the images of the two blobs. *)
Theorem resolver_reads_parent_commit env repository file commitish log :
  inWorkingDirectory file = false → status file ≠ New → status file ≠ Deleted →
  let prior := or_else (oldPath file) (path file) in
  let current_side := GetBlobContents repository commitish (path file) in
  let previous_side := GetBlobContents repository (commitish +:+ "^") prior in
  getImageDiff env repository file commitish log
  = match outcome env log current_side with
    | inl e => (inl e, log ++ [current_side])
    | inr bytes =>
        match outcome env (log ++ [current_side]) previous_side with
        | inl e => (inl e, log ++ [current_side; previous_side])
        | inr parent =>
            (inr {| previous := Some (image_of env prior parent);
                    current := Some (image_of env (path file) bytes) |},
             log ++ [current_side; previous_side])
        end
    end.
Proof.
  intros Hcommit Hnew Hdeleted. simpl.
  unfold getImageDiff. rewrite Hcommit.
  rewrite !bool_decide_eq_true_2 by done.
  unfold mbind, Promise_bind, fmap, Promise_fmap, await, resolve.
  rewrite getBlobImage_run.
  destruct (outcome env log _) as [e|bytes]; [done|].
  rewrite getBlobImage_run, <-(assoc_L (++)). simpl.
  by destruct (outcome env _ _) as [e|parent].
Qed.

Lemma resolver_reads_parent_commit_witness :
  getImageDiff history repo (committed "logo.gif" Modified) "abc123" []
  = (inr {| previous := Some {| contents := "UE5H"; mediaType := "image/gif" |};
            current := Some {| contents := "UE5H"; mediaType := "image/gif" |} |},
     [GetBlobContents repo "abc123" "logo.gif";
      GetBlobContents repo "abc123^" "logo.gif"]).
Proof.
  rewrite resolver_reads_parent_commit; [reflexivity | reflexivity | discriminate..].
Defined.

(** ** The output of git *)

Lemma split_string_cons sep c rest :
  split_string sep (String c rest)
  = if Ascii.eqb c sep then EmptyString :: split_string sep rest
    else match split_string sep rest with
         | piece :: pieces => String c piece :: pieces
         | [] => [String c EmptyString]
         end.
Proof. reflexivity. Qed.

Lemma split_string_nonempty sep text : split_string sep text ≠ [].
Proof.
  destruct text as [|c rest]; [done|]. rewrite split_string_cons.
  destruct (Ascii.eqb c sep); [done|]. by destruct (split_string sep rest).
Qed.

Lemma split_string_whole sep text :
  ¬ contains text (String sep EmptyString) → split_string sep text = [text].
Proof.
  induction text as [|c rest IH]; intros Hfree; [done|].
  rewrite split_string_cons. destruct (Ascii.eqb_spec c sep) as [->|Hne].
  - destruct Hfree. by exists EmptyString, rest.
  - rewrite IH; [done|]. intros (before & after & ->).
    destruct Hfree. by exists (String c before), after.
Qed.

Lemma split_string_separated sep before rest :
  ∃ p q pieces, split_string sep (before +:+ String sep rest) = p :: q :: pieces.
Proof.
  induction before as [|c before (p & q & pieces & IH)].
  - change (EmptyString +:+ String sep rest) with (String sep rest).
    rewrite split_string_cons, Ascii.eqb_refl.
    pose proof (split_string_nonempty sep rest).
    destruct (split_string sep rest) as [|q pieces]; [done|]. by eexists _, _, _.
  - rewrite string_app_cons, split_string_cons, IH.
    destruct (Ascii.eqb c sep); by eexists _, _, _.
Qed.

Lemma split_string_last sep before rest :
  last (split_string sep (before +:+ String sep rest)) = last (split_string sep rest).
Proof.
  induction before as [|c before IH].
  - change (EmptyString +:+ String sep rest) with (String sep rest).
    rewrite split_string_cons, Ascii.eqb_refl.
    pose proof (split_string_nonempty sep rest).
    by destruct (split_string sep rest).
  - rewrite string_app_cons, split_string_cons.
    destruct (split_string_separated sep before rest) as (p & q & pieces & Hs).
    rewrite Hs in IH |- *. by destruct (Ascii.eqb c sep).
Qed.

Lemma element_last {A} (l : list A) : element l (Z.of_nat (length l) - 1) = last l.
Proof.
  unfold element. destruct l as [|a l]; [done|].
  rewrite last_lookup. simpl length.
  destruct (Z.ltb_spec (Z.of_nat (S (length l)) - 1) 0); [lia|].
  f_equal. lia.
Qed.

Lemma diffFromRawDiffOutput_last tools result :
  diffFromRawDiffOutput tools result
  = parse tools <$> last (split_string "000" result).
Proof. unfold diffFromRawDiffOutput. simpl. by rewrite element_last. Qed.

Lemma split_string_last_piece result before piece :
  ¬ contains piece NUL →
  result = piece ∨ result = before +:+ NUL +:+ piece →
  last (split_string "000" result) = Some piece.
Proof.
  intros Hfree [->| ->].
  - by rewrite split_string_whole.
  - change (NUL +:+ piece) with (String "000" piece).
    by rewrite split_string_last, split_string_whole.
Qed.

Lemma split_string_last_is_Some sep text : is_Some (last (split_string sep text)).
Proof.
  pose proof (split_string_nonempty sep text).
  destruct (split_string sep text) using rev_ind; [done|].
  rewrite last_snoc. by eexists.
Qed.

(** X13: the parser is always handed a string, never [undefined]: the part of
    the output after its last NUL, or the whole output when it has none. *)
Theorem diffFromRawDiffOutput_parses_last_piece tools result :
  is_Some (diffFromRawDiffOutput tools result)
  ∧ (∀ before piece,
       ¬ contains piece NUL →
       result = piece ∨ result = before +:+ NUL +:+ piece →
       diffFromRawDiffOutput tools result = Some (parse tools piece)).
Proof.
  rewrite diffFromRawDiffOutput_last. split.
  - destruct (split_string_last_is_Some "000" result) as [piece ->]. by eexists.
  - intros before piece Hfree Hresult.
    by rewrite (split_string_last_piece result before piece).
Qed.

Lemma diffFromRawDiffOutput_parses_last_piece_witness :
  diffFromRawDiffOutput (git_printing binary_output) binary_output
  = Some (sample_parse "Binary files a/logo.gif and b/logo.gif differ").
Proof.
  destruct (diffFromRawDiffOutput_parses_last_piece (git_printing binary_output)
              binary_output) as [_ Hlast].
  apply (Hlast (":100644 100644 1a2b3c 4d5e6f M" +:+ NUL +:+ "logo.gif")).
  - intros Hnul%indexOf_found. vm_compute in Hnul. discriminate Hnul.
  - right. reflexivity.
Defined.

(** ** The two entry points *)

Ltac list_member := rewrite !elem_of_cons; repeat first [by left | right].

Ltac list_stranger :=
  rewrite !not_elem_of_cons, elem_of_nil; repeat split; (done || by intros []).

(** X14: in the arguments of every git run the path is the last one and
    follows the separator [--], and [--patch-with-raw] and [-z] are among the
    options before it.  For the working directory, a new file is compared with
    [/dev/null] without an index, and then the exit codes 0 and 1 both count
    as success; any other file is compared with nothing added and with the
    default exit codes. *)
Theorem git_arguments_end_with_path file commitish :
  (∃ options,
     getCommitDiff_args file commitish = options ++ ["--"; path file]
     ∧ "--patch-with-raw" ∈ options ∧ "-z" ∈ options)
  ∧ (∃ options comparand,
       getWorkingDirectoryDiff_args file = options ++ "--" :: comparand ++ [path file]
       ∧ "--patch-with-raw" ∈ options ∧ "-z" ∈ options
       ∧ ((status file = New ∧ comparand = ["/dev/null"] ∧ "--no-index" ∈ options
           ∧ getWorkingDirectoryDiff_opts file
             = Some {| successExitCodes := {[ 0%Z; 1%Z ]} |})
          ∨ (status file ≠ New ∧ comparand = [] ∧ ("--no-index" ∉ options)
             ∧ getWorkingDirectoryDiff_opts file = None))).
Proof.
  split.
  - exists ["log"; commitish; "-m"; "-1"; "--first-parent"; "--patch-with-raw"; "-z"].
    split; [done|]. split; list_member.
  - unfold getWorkingDirectoryDiff_args, getWorkingDirectoryDiff_opts.
    destruct (status file); simpl.
    + exists ["diff"; "--no-index"; "--patch-with-raw"; "-z"], ["/dev/null"].
      split; [done|]. split; [list_member|]. split; [list_member|].
      left. split; [done|]. split; [done|]. split; [list_member|done].
    + exists ["diff"; "HEAD"; "--patch-with-raw"; "-z"], [].
      split; [done|]. split; [list_member|]. split; [list_member|].
      right. split; [done|]. split; [done|]. split; [list_stranger|done].
    + exists ["diff"; "HEAD"; "--patch-with-raw"; "-z"], [].
      split; [done|]. split; [list_member|]. split; [list_member|].
      right. split; [done|]. split; [done|]. split; [list_stranger|done].
    + exists ["diff"; "--patch-with-raw"; "-z"], [].
      split; [done|]. split; [list_member|]. split; [list_member|].
      right. split; [done|]. split; [done|]. split; [list_stranger|done].
    + exists ["diff"; "HEAD"; "--patch-with-raw"; "-z"], [].
      split; [done|]. split; [list_member|]. split; [list_member|].
      right. split; [done|]. split; [done|]. split; [list_stranger|done].
Qed.

Lemma render_run env tools repository file args name opts commitish log :
  (value ← git tools args (repository_path repository) name opts;
   diff ← defined (diffFromRawDiffOutput tools (stdout value));
   convertDiff env repository file diff commitish) log
  = match git_outcome tools log args (repository_path repository) name opts with
    | inl e => (inl e, log)
    | inr value =>
        match last (split_string "000" (stdout value)) with
        | Some piece => convertDiff env repository file (parse tools piece) commitish log
        | None => (inl (TypeError "undefined is not a string"), log)
        end
    end.
Proof.
  unfold mbind, Promise_bind, await, git.
  destruct (git_outcome tools log args _ name opts) as [e|value]; [done|].
  rewrite diffFromRawDiffOutput_last.
  by destruct (last (split_string "000" (stdout value))).
Qed.

(** X15: [getCommitDiff] rejects with the error of git, without any request,
    when git fails; otherwise it is the conversion, at the given revision, of
    what the parser makes of the output after its last NUL. *)
Theorem getCommitDiff_run env tools repository file commitish log :
  let answer :=
    git_outcome tools log (getCommitDiff_args file commitish)
      (repository_path repository) "getCommitDiff" None in
  (∀ e, answer = inl e →
        getCommitDiff env tools repository file commitish log = (inl e, log))
  ∧ (∀ value before piece,
       answer = inr value → ¬ contains piece NUL →
       stdout value = piece ∨ stdout value = before +:+ NUL +:+ piece →
       getCommitDiff env tools repository file commitish log
       = convertDiff env repository file (parse tools piece) commitish log).
Proof.
  simpl. unfold getCommitDiff. cbv zeta. rewrite render_run. split.
  - by intros e ->.
  - intros value before piece -> Hfree Hout.
    by rewrite (split_string_last_piece _ before piece).
Qed.

(** X16: [getWorkingDirectoryDiff] rejects with the error of git, without any
    request, when git fails; otherwise it is the conversion, at [HEAD], of
    what the parser makes of the output after its last NUL. *)
Theorem getWorkingDirectoryDiff_run env tools repository file log :
  let answer :=
    git_outcome tools log (getWorkingDirectoryDiff_args file)
      (repository_path repository) "getWorkingDirectoryDiff"
      (getWorkingDirectoryDiff_opts file) in
  (∀ e, answer = inl e →
        getWorkingDirectoryDiff env tools repository file log = (inl e, log))
  ∧ (∀ value before piece,
       answer = inr value → ¬ contains piece NUL →
       stdout value = piece ∨ stdout value = before +:+ NUL +:+ piece →
       getWorkingDirectoryDiff env tools repository file log
       = convertDiff env repository file (parse tools piece) "HEAD" log).
Proof.
  simpl. unfold getWorkingDirectoryDiff. cbv zeta. rewrite render_run. split.
  - by intros e ->.
  - intros value before piece -> Hfree Hout.
    by rewrite (split_string_last_piece _ before piece).
Qed.

Lemma getCommitDiff_run_witness :
  getCommitDiff history git_failing repo (committed "logo.gif" Modified) "abc123" []
  = (inl (ReadFailure "fatal: not a git repository"), [])
  ∧ getCommitDiff history (git_printing binary_output) repo
      (committed "logo.gif" Modified) "abc123" []
    = convertDiff history repo (committed "logo.gif" Modified)
        (sample_parse "Binary files a/logo.gif and b/logo.gif differ") "abc123" [].
Proof.
  split.
  - by apply getCommitDiff_run.
  - apply (proj2 (getCommitDiff_run history (git_printing binary_output) repo
                    (committed "logo.gif" Modified) "abc123" [])
             {| stdout := binary_output |}
             (":100644 100644 1a2b3c 4d5e6f M" +:+ NUL +:+ "logo.gif"));
      [reflexivity| |right; reflexivity].
    intros Hnul%indexOf_found. vm_compute in Hnul. discriminate Hnul.
Defined.

Lemma getWorkingDirectoryDiff_run_witness :
  getWorkingDirectoryDiff tree_only git_failing repo (in_tree "a.png" New) []
  = (inl (ReadFailure "fatal: not a git repository"), [])
  ∧ getWorkingDirectoryDiff tree_only (git_printing binary_output) repo
      (in_tree "a.png" New) []
    = convertDiff tree_only repo (in_tree "a.png" New)
        (sample_parse "Binary files a/logo.gif and b/logo.gif differ") "HEAD" [].
Proof.
  split.
  - by apply getWorkingDirectoryDiff_run.
  - apply (proj2 (getWorkingDirectoryDiff_run tree_only (git_printing binary_output)
                    repo (in_tree "a.png" New) [])
             {| stdout := binary_output |}
             (":100644 100644 1a2b3c 4d5e6f M" +:+ NUL +:+ "logo.gif"));
      [reflexivity| |right; reflexivity].
    intros Hnul%indexOf_found. vm_compute in Hnul. discriminate Hnul.
Defined.

(** ** What the entry points read *)

Lemma convertDiff_log_cases env repository file (diff : RawDiff) commitish log :
  (convertDiff env repository file diff commitish log).2 = log
  ∨ (convertDiff env repository file diff commitish log).2
    = (getImageDiff env repository file commitish log).2.
Proof.
  destruct (isBinary diff) eqn:Hbin.
  - rewrite convertDiff_binary by done. case_bool_decide; [right|by left].
    rewrite fmap_run.
    by destruct (getImageDiff env repository file commitish log) as [[e|image] l].
  - left. rewrite convertDiff_not_binary by done.
    pose proof (firstLineLooksLikeSubmodule_log log diff) as Hlog.
    by destruct (firstLineLooksLikeSubmodule diff log) as [[e|[]] l].
Qed.

Lemma render_log_cases env tools repository file args name opts commitish log :
  ((value ← git tools args (repository_path repository) name opts;
    diff ← defined (diffFromRawDiffOutput tools (stdout value));
    convertDiff env repository file diff commitish) log).2 = log
  ∨ ((value ← git tools args (repository_path repository) name opts;
      diff ← defined (diffFromRawDiffOutput tools (stdout value));
      convertDiff env repository file diff commitish) log).2
    = (getImageDiff env repository file commitish log).2.
Proof.
  rewrite render_run.
  destruct (git_outcome tools log args _ name opts) as [e|value]; [by left|].
  destruct (last (split_string "000" (stdout value))) as [piece|]; [|by left].
  apply convertDiff_log_cases.
Qed.

Ltac resolver_requests :=
  first
    [ exists []; split; [by rewrite (right_id_L [] (++))|apply Forall_nil_2]
    | eexists; split; [by rewrite <-?(assoc_L (++))|];
      repeat (apply Forall_cons; split; [first [by left | by right]|]);
      apply Forall_nil_2 ].

Lemma getImageDiff_committed_requests env repository file commitish log :
  inWorkingDirectory file = false →
  ∃ reqs,
    (getImageDiff env repository file commitish log).2 = log ++ reqs
    ∧ Forall (λ req,
        req = GetBlobContents repository commitish (path file)
        ∨ req = GetBlobContents repository (commitish +:+ "^")
                  (or_else (oldPath file) (path file))) reqs.
Proof. resolver_cases file; intros [=]; resolver_requests. Qed.

Lemma getImageDiff_tree_requests env repository file commitish log :
  inWorkingDirectory file = true →
  ∃ reqs,
    (getImageDiff env repository file commitish log).2 = log ++ reqs
    ∧ Forall (λ req,
        (status file ≠ Deleted
         ∧ req = ReadFile (join env (repository_path repository) (path file)))
        ∨ (status file ≠ New
           ∧ req = GetBlobContents repository "HEAD"
                     (or_else (oldPath file) (path file)))) reqs.
Proof. resolver_cases file; intros [=]; resolver_requests. Qed.

(** X17: whatever git prints, [getCommitDiff] on a committed change only
    appends to the log, and only requests for the blob of the path at the
    revision or for the blob of the prior path at its parent: it never reads
    the working tree. *)
Theorem getCommitDiff_reads_history_only env tools repository file commitish log :
  inWorkingDirectory file = false →
  ∃ reqs,
    (getCommitDiff env tools repository file commitish log).2 = log ++ reqs
    ∧ Forall (λ req,
        req = GetBlobContents repository commitish (path file)
        ∨ req = GetBlobContents repository (commitish +:+ "^")
                  (or_else (oldPath file) (path file))) reqs.
Proof.
  intros Hcommit. unfold getCommitDiff. cbv zeta.
  destruct (render_log_cases env tools repository file
              (getCommitDiff_args file commitish) "getCommitDiff" None commitish log)
    as [-> | ->].
  - exists []. split; [by rewrite (right_id_L [] (++))|apply Forall_nil_2].
  - by apply getImageDiff_committed_requests.
Qed.

Lemma getCommitDiff_reads_history_only_witness :
  ∃ reqs,
    (getCommitDiff history (git_printing binary_output) repo
       (committed "logo.gif" Modified) "abc123" []).2 = [] ++ reqs
    ∧ Forall (λ req,
        req = GetBlobContents repo "abc123" "logo.gif"
        ∨ req = GetBlobContents repo ("abc123" +:+ "^") "logo.gif") reqs.
Proof.
  by apply (getCommitDiff_reads_history_only history (git_printing binary_output) repo
              (committed "logo.gif" Modified) "abc123" []).
Defined.

(** X18: whatever git prints, [getWorkingDirectoryDiff] on a change of the
    working directory only appends to the log, and only a read of the file in
    the working tree, unless the file is deleted, and a request for the blob
    of the prior path at [HEAD], unless the file is new. *)
Theorem getWorkingDirectoryDiff_reads_tree_and_head env tools repository file log :
  inWorkingDirectory file = true →
  ∃ reqs,
    (getWorkingDirectoryDiff env tools repository file log).2 = log ++ reqs
    ∧ Forall (λ req,
        (status file ≠ Deleted
         ∧ req = ReadFile (join env (repository_path repository) (path file)))
        ∨ (status file ≠ New
           ∧ req = GetBlobContents repository "HEAD"
                     (or_else (oldPath file) (path file)))) reqs.
Proof.
  intros Htree. unfold getWorkingDirectoryDiff. cbv zeta.
  destruct (render_log_cases env tools repository file
              (getWorkingDirectoryDiff_args file) "getWorkingDirectoryDiff"
              (getWorkingDirectoryDiff_opts file) "HEAD" log)
    as [-> | ->].
  - exists []. split; [by rewrite (right_id_L [] (++))|apply Forall_nil_2].
  - by apply getImageDiff_tree_requests.
Qed.

Lemma getWorkingDirectoryDiff_reads_tree_and_head_witness :
  ∃ reqs,
    (getWorkingDirectoryDiff tree_only (git_printing binary_output) repo
       (in_tree "a.png" New) []).2 = [] ++ reqs
    ∧ Forall (λ req,
        (New ≠ Deleted ∧ req = ReadFile (join tree_only "/repo" "a.png"))
        ∨ (New ≠ New ∧ req = GetBlobContents repo "HEAD" "a.png")) reqs.
Proof.
  by apply (getWorkingDirectoryDiff_reads_tree_and_head tree_only
              (git_printing binary_output) repo (in_tree "a.png" New) []).
Defined.
